(** * A fixed-window rate limiter on Durable Object storage

    Shallow embedding of [src/src/durable-object.ts]
    ([RateLimiterDurableObject]: [checkLimit], [alarm], [scheduleCleanup]
    and the constructor) together with a model of the storage object the
    class talks to; of the earlier class of [src/src/do-rate-limiter/do.ts],
    which stores no [windowMs] and has no sweep; and of the adapter class
    [CloudflareDurableRateLimiter] ([limit] and its constructor), run on a
    namespace of actors of the first class.

    Modelling choices.
    - A JavaScript [number] that holds a count, a duration or an epoch
      time in milliseconds is an integer far below 2^53, where the
      arithmetic and the comparisons of the source are exact: it is a [Z].
    - [Date.now()] is an input.  [checkLimit] reads the clock once, [alarm]
      reads it twice (before the scan and again when it reschedules), the
      constructor at most once; each reading is a parameter.
    - [this.storage] is one value of type [DurableObjectStorage]: the
      key/value entries, the pending alarm, and the list of calls made on
      it so far (what the spies of the test suite record).  The methods of
      the class are computations in a state monad over it, so the order of
      the storage calls is the order of the source.
    - [await] and [ctx.blockConcurrencyWhile] run their argument to
      completion: the actor serialises its invocations, and the model has
      no other thread of control. *)

From Stdlib Require Import ZArith Lia.
From stdpp Require Import gmap strings list fin_maps.

Local Open Scope Z_scope.

(** ** Data *)

(** [const CLEANUP_INTERVAL_MS = 12 * 60 * 60 * 1000] *)
Definition CLEANUP_INTERVAL_MS : Z := 12 * 60 * 60 * 1000.

(** [type RateLimitEntry = { count; timestamp; windowMs }] *)
Module Entry.
Record t : Type := mk { count : Z; timestamp : Z; windowMs : Z }.
End Entry.
Abbreviation RateLimitEntry := Entry.t.

#[global] Instance RateLimitEntry_eq_dec : EqDecision RateLimitEntry.
Proof. solve_decision. Defined.

(** The object literal returned by [checkLimit]. *)
Module Result.
Record t : Type := mk { success : bool; remaining : Z; reset : Z; limit : Z }.
End Result.
Abbreviation RateLimitResult := Result.t.

(** ** The storage collaborator *)

(** One constructor per method of [DurableObjectStorage] that the class
    calls, with the arguments of the call. *)
Inductive StorageCall : Type :=
| CallGet (key : string)
| CallPut (key : string) (value : RateLimitEntry)
| CallDelete (keys : list string)
| CallList
| CallGetAlarm
| CallSetAlarm (scheduledTime : Z).

Record DurableObjectStorage : Type := mkStorage {
  entries : gmap string RateLimitEntry;
  alarmTime : option Z;
  calls : list StorageCall
}.

Definition emptyStorage : DurableObjectStorage :=
  {| entries := ∅; alarmTime := None; calls := [] |}.

(** Computations that use the storage. *)
Definition Task (A : Type) : Type := DurableObjectStorage → A * DurableObjectStorage.

#[global] Instance Task_ret : MRet Task := λ A (a : A) s, (a, s).
#[global] Instance Task_bind : MBind Task :=
  λ A B (k : A → Task B) (m : Task A) s, let '(a, s') := m s in k a s'.

Definition recorded (c : StorageCall) (s : DurableObjectStorage) : DurableObjectStorage :=
  {| entries := entries s; alarmTime := alarmTime s; calls := calls s ++ [c] |}.

(** [storage.get(key)] *)
Definition storage_get (key : string) : Task (option RateLimitEntry) :=
  λ s, (entries s !! key, recorded (CallGet key) s).

(** [storage.put(key, value)] *)
Definition storage_put (key : string) (value : RateLimitEntry) : Task unit :=
  λ s, (tt, {| entries := <[key := value]> (entries s);
               alarmTime := alarmTime s;
               calls := calls s ++ [CallPut key value] |}).

(** [storage.delete(keys)]: every listed key is removed. *)
Definition storage_delete (keys : list string) : Task unit :=
  λ s, (tt, {| entries := foldr delete (entries s) keys;
               alarmTime := alarmTime s;
               calls := calls s ++ [CallDelete keys] |}).

(** [storage.list()]: all the pairs key, entry.  The order in which the
    pairs come plays no part in what is proved below. *)
Definition storage_list : Task (list (string * RateLimitEntry)) :=
  λ s, (map_to_list (entries s), recorded CallList s).

(** [storage.getAlarm()]: the pending alarm, [None] for [null]. *)
Definition storage_getAlarm : Task (option Z) :=
  λ s, (alarmTime s, recorded CallGetAlarm s).

(** [storage.setAlarm(scheduledTime)] *)
Definition storage_setAlarm (scheduledTime : Z) : Task unit :=
  λ s, (tt, {| entries := entries s;
               alarmTime := Some scheduledTime;
               calls := calls s ++ [CallSetAlarm scheduledTime] |}).

(** ** The class [RateLimiterDurableObject] *)

(** [checkLimit(identifier, max, windowMs)], with [now] the value of
    [Date.now()] on its first line. *)
Definition checkLimit (now : Z) (identifier : string) (max windowMs : Z)
  : Task RateLimitResult :=
  let windowStart := now - windowMs in
  let newWindow : Task RateLimitResult :=
    let entry := Entry.mk 1 now windowMs in
    _ ← storage_put identifier entry;
    mret (Result.mk true (max - 1) (now + windowMs) max) in
  entry ← storage_get identifier;
  match entry with
  | None => newWindow
  | Some entry =>
      if Entry.timestamp entry <? windowStart then newWindow
      else if Entry.count entry >=? max then
        mret (Result.mk false 0 (Entry.timestamp entry + windowMs) max)
      else
        let entry := Entry.mk (Entry.count entry + 1) (Entry.timestamp entry) windowMs in
        _ ← storage_put identifier entry;
        mret (Result.mk true (max - Entry.count entry)
                (Entry.timestamp entry + windowMs) max)
  end.

(** The loop of [alarm] that fills [expiredKeys]. *)
Fixpoint expiredKeys (now : Z) (entries : list (string * RateLimitEntry)) : list string :=
  match entries with
  | [] => []
  | (key, entry) :: rest =>
      let expirationTime := Entry.timestamp entry + Entry.windowMs entry in
      if expirationTime <? now then key :: expiredKeys now rest
      else expiredKeys now rest
  end.

(** [alarm()]; [now] is the first reading of the clock, [now'] the one
    taken for [nextCleanup]. *)
Definition alarm (now now' : Z) : Task unit :=
  entries ← storage_list;
  let expiredKeys := expiredKeys now entries in
  _ ← (if (0 <? length expiredKeys)%nat then storage_delete expiredKeys else mret tt);
  let nextCleanup := now' + CLEANUP_INTERVAL_MS in
  storage_setAlarm nextCleanup.

(** [scheduleCleanup()]; the clock is read only when no alarm exists. *)
Definition scheduleCleanup (now : Z) : Task unit :=
  existingAlarm ← storage_getAlarm;
  match existingAlarm with
  | None => storage_setAlarm (now + CLEANUP_INTERVAL_MS)
  | Some _ => mret tt
  end.

(** The constructor: [blockConcurrencyWhile(() => scheduleCleanup())]. *)
Definition construct (now : Z) : Task unit := scheduleCleanup now.

(** ** Sequences of invocations *)

(** The same [checkLimit(identifier, max, windowMs)] call made once at each
    of the given times, in order; the results in the order of the calls. *)
Fixpoint checkLimitAt (times : list Z) (identifier : string) (max windowMs : Z)
  : Task (list RateLimitResult) :=
  match times with
  | [] => mret []
  | now :: later =>
      r ← checkLimit now identifier max windowMs;
      rs ← checkLimitAt later identifier max windowMs;
      mret (r :: rs)
  end.

(** What the runtime can invoke on a constructed actor. *)
Inductive Invocation : Type :=
| InvokeCheckLimit (now : Z) (identifier : string) (max windowMs : Z)
| InvokeAlarm (now now' : Z).

Definition invoke (i : Invocation) (s : DurableObjectStorage) : DurableObjectStorage :=
  match i with
  | InvokeCheckLimit now identifier max windowMs =>
      (checkLimit now identifier max windowMs s).2
  | InvokeAlarm now now' => (alarm now now' s).2
  end.

(** The actor is constructed at [born] on the given storage and then
    serves the invocations one after the other. *)
Definition lifetime (born : Z) (invocations : list Invocation) (s : DurableObjectStorage)
  : DurableObjectStorage :=
  foldl (λ s i, invoke i s) (construct born s).2 invocations.

(** Every stored entry has a positive count. *)
Definition countsPositive (s : DurableObjectStorage) : Prop :=
  ∀ key entry, entries s !! key = Some entry → 0 < Entry.count entry.

(** An entry whose window is over at [now], as [alarm] judges it. *)
Definition expiredAt (now : Z) (entry : RateLimitEntry) : Prop :=
  Entry.timestamp entry + Entry.windowMs entry < now.

#[global] Instance expiredAt_dec now entry : Decision (expiredAt now entry).
Proof. unfold expiredAt. apply _. Defined.

(** The condition under which [checkLimit] starts a new window:
    [!entry || entry.timestamp < windowStart]. *)
Definition startsNewWindow (s : DurableObjectStorage) (identifier : string)
    (now windowMs : Z) : Prop :=
  match entries s !! identifier with
  | None => True
  | Some entry => Entry.timestamp entry < now - windowMs
  end.

(** A storage that holds exactly one entry, with no alarm and no call made
    so far. *)
Definition storageWith (key : string) (entry : RateLimitEntry) : DurableObjectStorage :=
  {| entries := {[key := entry]}; alarmTime := None; calls := [] |}.

(** ** Equations of the methods *)

(** The three paths through [checkLimit], each with its result and the
    storage it leaves. *)

Definition opening (now : Z) (identifier : string) (max windowMs : Z)
    (s : DurableObjectStorage) : RateLimitResult * DurableObjectStorage :=
  (Result.mk true (max - 1) (now + windowMs) max,
   {| entries := <[identifier := Entry.mk 1 now windowMs]> (entries s);
      alarmTime := alarmTime s;
      calls := calls s ++ [CallGet identifier;
                           CallPut identifier (Entry.mk 1 now windowMs)] |}).

Definition rejecting (entry : RateLimitEntry) (identifier : string) (max windowMs : Z)
    (s : DurableObjectStorage) : RateLimitResult * DurableObjectStorage :=
  (Result.mk false 0 (Entry.timestamp entry + windowMs) max,
   recorded (CallGet identifier) s).

Definition counting (entry : RateLimitEntry) (identifier : string) (max windowMs : Z)
    (s : DurableObjectStorage) : RateLimitResult * DurableObjectStorage :=
  let entry' := Entry.mk (Entry.count entry + 1) (Entry.timestamp entry) windowMs in
  (Result.mk true (max - (Entry.count entry + 1)) (Entry.timestamp entry + windowMs) max,
   {| entries := <[identifier := entry']> (entries s);
      alarmTime := alarmTime s;
      calls := calls s ++ [CallGet identifier; CallPut identifier entry'] |}).

(** ** Requests served in a row *)

(** One [checkLimit] call: the clock reading and the three arguments. *)
Record Request : Type := mkRequest {
  req_now : Z; req_identifier : string; req_max : Z; req_windowMs : Z
}.

(** The calls are served in order; their results in the same order. *)
Fixpoint checkLimits (requests : list Request) : Task (list RateLimitResult) :=
  match requests with
  | [] => mret []
  | q :: later =>
      r ← checkLimit (req_now q) (req_identifier q) (req_max q) (req_windowMs q);
      rs ← checkLimits later;
      mret (r :: rs)
  end.

(** ** [src/src/do-rate-limiter/do.ts]: the class without the sweep

    The object this class stores is [{ count, timestamp }]; it has no alarm
    and calls only [storage.get] and [storage.put]. *)
Module Do.

Record Entry : Type := mkEntry { count : Z; timestamp : Z }.

Inductive StorageCall : Type :=
| CallGet (key : string)
| CallPut (key : string) (value : Entry).

Record DurableObjectStorage : Type := mkStorage {
  entries : gmap string Entry;
  calls : list StorageCall
}.

Definition Task (A : Type) : Type := DurableObjectStorage → A * DurableObjectStorage.

#[global] Instance Task_ret : MRet Task := λ A (a : A) s, (a, s).
#[global] Instance Task_bind : MBind Task :=
  λ A B (k : A → Task B) (m : Task A) s, let '(a, s') := m s in k a s'.

Definition storage_get (key : string) : Task (option Entry) :=
  λ s, (entries s !! key, {| entries := entries s; calls := calls s ++ [CallGet key] |}).

Definition storage_put (key : string) (value : Entry) : Task unit :=
  λ s, (tt, {| entries := <[key := value]> (entries s);
               calls := calls s ++ [CallPut key value] |}).

(** [checkLimit(identifier, max, windowMs)] of [do.ts]. *)
Definition checkLimit (now : Z) (identifier : string) (max windowMs : Z)
  : Task RateLimitResult :=
  let windowStart := now - windowMs in
  let newWindow : Task RateLimitResult :=
    let entry := mkEntry 1 now in
    _ ← storage_put identifier entry;
    mret (Result.mk true (max - 1) (now + windowMs) max) in
  entry ← storage_get identifier;
  match entry with
  | None => newWindow
  | Some entry =>
      if timestamp entry <? windowStart then newWindow
      else if count entry >=? max then
        mret (Result.mk false 0 (timestamp entry + windowMs) max)
      else
        let entry := mkEntry (count entry + 1) (timestamp entry) in
        _ ← storage_put identifier entry;
        mret (Result.mk true (max - count entry) (timestamp entry + windowMs) max)
  end.

Fixpoint checkLimits (requests : list Request) : Task (list RateLimitResult) :=
  match requests with
  | [] => mret []
  | q :: later =>
      r ← checkLimit (req_now q) (req_identifier q) (req_max q) (req_windowMs q);
      rs ← checkLimits later;
      mret (r :: rs)
  end.

End Do.

(** What [do.ts] stores for an entry of [durable-object.ts]. *)
Definition withoutWindowMs (entry : RateLimitEntry) : Do.Entry :=
  Do.mkEntry (Entry.count entry) (Entry.timestamp entry).

(** The two storages hold the same counters under the same keys. *)
Definition sameCounters (old : Do.DurableObjectStorage) (s : DurableObjectStorage) : Prop :=
  Do.entries old = withoutWindowMs <$> entries s.

(** ** The adapter [CloudflareDurableRateLimiter]

    [RatelimitOptions], with [None] for an absent [prefix]. *)
Module Options.
Record t : Type := mk { prefix : option string; maxRequests : Z; window : Z }.
End Options.

(** The fields of the class, the namespace apart: it is the state the
    methods run on. *)
Module Limiter.
Record t : Type := mk { prefix : string; maxRequests : Z; window : Z }.
End Limiter.

(** The constructor: [options.prefix ?? "orpc:ratelimit:"] and the two
    numbers as given. *)
Definition newRateLimiter (options : Options.t) : Limiter.t :=
  Limiter.mk (default "orpc:ratelimit:" (Options.prefix options))
    (Options.maxRequests options) (Options.window options).

(** The namespace: the storage of every actor that exists, by name.
    [namespace.getByName(name)] addresses the actor of that name; one that
    does not exist yet is constructed, on empty storage, when the first
    call reaches it.  [born] is what [Date.now()] returns in the
    [scheduleCleanup] of that construction. *)
Definition getByName (born : Z) (name : string)
    (namespace : gmap string DurableObjectStorage) : DurableObjectStorage :=
  match namespace !! name with
  | Some actor => actor
  | None => (construct born emptyStorage).2
  end.

(** [limit(key)].  Two readings of the clock: [born], taken by the
    constructor when the call has to construct the actor, and [now], taken
    afterwards on the first line of [checkLimit]. *)
Definition limit (self : Limiter.t) (born now : Z) (key : string)
    (namespace : gmap string DurableObjectStorage)
  : RateLimitResult * gmap string DurableObjectStorage :=
  let prefixedKey := Limiter.prefix self +:+ key in
  let stub := getByName born prefixedKey namespace in
  let '(result, actor) :=
    checkLimit now prefixedKey (Limiter.maxRequests self) (Limiter.window self) stub in
  (result, <[prefixedKey := actor]> namespace).

(** What happens to a namespace used through one limiter: a [limit] call,
    or the runtime firing the alarm of an actor. *)
Inductive Event : Type :=
| EventLimit (born now : Z) (key : string)
| EventAlarm (name : string) (now now' : Z).

Definition happen (self : Limiter.t) (namespace : gmap string DurableObjectStorage)
    (e : Event) : gmap string DurableObjectStorage :=
  match e with
  | EventLimit born now key => (limit self born now key namespace).2
  | EventAlarm name now now' =>
      match namespace !! name with
      | Some actor => <[name := (alarm now now' actor).2]> namespace
      | None => namespace
      end
  end.

(** What holds of every actor of a namespace used through [self]: its alarm
    is pending, and it stores nothing but the counter of its own name,
    with the configured window and a count from 1 to [maxRequests]. *)
Definition wellKept (self : Limiter.t) (namespace : gmap string DurableObjectStorage) : Prop :=
  ∀ name actor, namespace !! name = Some actor →
    (∃ key, name = Limiter.prefix self +:+ key)
    ∧ is_Some (alarmTime actor)
    ∧ ∀ k entry, entries actor !! k = Some entry →
        k = name
        ∧ Entry.windowMs entry = Limiter.window self
        ∧ 1 ≤ Entry.count entry ≤ Limiter.maxRequests self.

Lemma checkLimit_eq now identifier max windowMs s :
  checkLimit now identifier max windowMs s =
  match entries s !! identifier with
  | None => opening now identifier max windowMs s
  | Some entry =>
      if Entry.timestamp entry <? now - windowMs
      then opening now identifier max windowMs s
      else if Entry.count entry >=? max
      then rejecting entry identifier max windowMs s
      else counting entry identifier max windowMs s
  end.
Proof.
  unfold checkLimit, opening, rejecting, counting.
  unfold mbind, Task_bind, mret, Task_ret, storage_get, storage_put, recorded.
  cbn. destruct (entries s !! identifier) as [entry|]; cbn.
  - destruct (Entry.timestamp entry <? now - windowMs); cbn.
    + by rewrite <- app_assoc.
    + destruct (Entry.count entry >=? max); cbn; [done|].
      by rewrite <- app_assoc.
  - by rewrite <- app_assoc.
Qed.

Lemma checkLimit_opens now identifier max windowMs s :
  startsNewWindow s identifier now windowMs →
  checkLimit now identifier max windowMs s = opening now identifier max windowMs s.
Proof.
  unfold startsNewWindow. rewrite checkLimit_eq.
  destruct (entries s !! identifier) as [entry|]; [|done].
  intros ?. by destruct (Z.ltb_spec (Entry.timestamp entry) (now - windowMs)); [|lia].
Qed.

Lemma checkLimit_rejects now identifier max windowMs s entry :
  entries s !! identifier = Some entry →
  now - windowMs ≤ Entry.timestamp entry →
  max ≤ Entry.count entry →
  checkLimit now identifier max windowMs s = rejecting entry identifier max windowMs s.
Proof.
  intros Hs ? ?. rewrite checkLimit_eq, Hs.
  destruct (Z.ltb_spec (Entry.timestamp entry) (now - windowMs)); [lia|].
  by destruct (Z.geb_spec (Entry.count entry) max); [|lia].
Qed.

Lemma checkLimit_counts now identifier max windowMs s entry :
  entries s !! identifier = Some entry →
  now - windowMs ≤ Entry.timestamp entry →
  Entry.count entry < max →
  checkLimit now identifier max windowMs s = counting entry identifier max windowMs s.
Proof.
  intros Hs ? ?. rewrite checkLimit_eq, Hs.
  destruct (Z.ltb_spec (Entry.timestamp entry) (now - windowMs)); [lia|].
  by destruct (Z.geb_spec (Entry.count entry) max); [lia|].
Qed.

Lemma checkLimitAt_cons now later identifier max windowMs s :
  checkLimitAt (now :: later) identifier max windowMs s =
  let '(r, s') := checkLimit now identifier max windowMs s in
  let '(rs, s'') := checkLimitAt later identifier max windowMs s' in
  (r :: rs, s'').
Proof. reflexivity. Qed.

(** ** The accept/reject boundary *)

Section Window.
Variables (identifier : string) (max windowMs opened : Z).

(** With [k] requests already counted in the window opened at [opened],
    the next [max - k] calls inside the window are accepted and the one
    after them is rejected. *)
Lemma checkLimitAt_counted (times : list Z) :
  ∀ (k : Z) (s : DurableObjectStorage),
    entries s !! identifier = Some (Entry.mk k opened windowMs) →
    1 ≤ k ≤ max →
    Forall (λ now, now ≤ opened + windowMs) times →
    length times = S (Z.to_nat (max - k)) →
    (checkLimitAt times identifier max windowMs s).1 =
      ((λ i, Result.mk true (max - 1 - i) (opened + windowMs) max) <$> seqZ k (max - k))
      ++ [Result.mk false 0 (opened + windowMs) max].
Proof.
  induction times as [|now later IH]; intros k s Hs Hk Hin Hlen; [done|].
  apply Forall_cons in Hin as [Hnow Hlater].
  rewrite checkLimitAt_cons.
  destruct (Z.lt_ge_cases k max) as [Hlt|Hge].
  - rewrite (checkLimit_counts _ _ _ _ _ _ Hs) by (cbn; lia).
    unfold counting. cbn.
    set (s' := mkStorage _ _ _).
    specialize (IH (k + 1) s').
    destruct (checkLimitAt later identifier max windowMs s') as [rs s''].
    cbn in *. rewrite IH.
    + rewrite (seqZ_cons k (max - k)) by lia. cbn.
      replace (Z.succ k) with (k + 1) by lia.
      replace (Z.pred (max - k)) with (max - (k + 1)) by lia.
      by replace (max - (k + 1)) with (max - 1 - k) by lia.
    + by rewrite lookup_insert_eq.
    + lia.
    + done.
    + injection Hlen as ->. rewrite <- Z2Nat.inj_succ by lia. f_equal. lia.
  - rewrite (checkLimit_rejects _ _ _ _ _ _ Hs) by (cbn; lia).
    unfold rejecting. cbn.
    assert (k = max) as -> by lia.
    replace (max - max) with 0 in * by lia. cbn in Hlen.
    destruct later; [|done]. done.
Qed.
End Window.

(** C1.  Monotonic accept/reject boundary: when a call at [opened] starts a
    window (no entry for the identifier, or a stale one) and [max] further
    calls with the same arguments come no later than [opened + windowMs],
    the first [max] of these [max + 1] calls succeed with [remaining]
    [max-1, ..., 0] and the last one fails with [remaining = 0]; [reset]
    and [limit] are the same throughout. *)
Theorem checkLimit_boundary (identifier : string) (max windowMs opened : Z)
    (later : list Z) (s : DurableObjectStorage) :
  1 ≤ max → 1 ≤ windowMs →
  startsNewWindow s identifier opened windowMs →
  length later = Z.to_nat max →
  Forall (λ now, now ≤ opened + windowMs) later →
  (checkLimitAt (opened :: later) identifier max windowMs s).1 =
    ((λ i, Result.mk true (max - 1 - i) (opened + windowMs) max) <$> seqZ 0 max)
    ++ [Result.mk false 0 (opened + windowMs) max].
Proof.
  intros Hmax Hw Hnew Hlen Hin.
  rewrite checkLimitAt_cons, checkLimit_opens by done.
  unfold opening. set (s' := mkStorage _ _ _).
  pose proof (checkLimitAt_counted identifier max windowMs opened later 1 s') as Hrest.
  destruct (checkLimitAt later identifier max windowMs s') as [rs s''].
  cbn in *. rewrite Hrest.
  - rewrite (seqZ_cons 0 max) by lia. cbn.
    replace (Z.succ 0) with 1 by lia. replace (Z.pred max) with (max - 1) by lia.
    by replace (max - 1 - 0) with (max - 1) by lia.
  - by rewrite lookup_insert_eq.
  - lia.
  - done.
  - rewrite Hlen. rewrite <- Z2Nat.inj_succ by lia. f_equal. lia.
Qed.

(** C1 at the scenario of the specification: [max = 10], a window of one
    minute opened at [t = 0], the tenth call at [t = 5000] and the
    eleventh at [t = 10000]. *)
Lemma checkLimit_boundary_witness :
  (checkLimitAt (0 :: [500; 1000; 1500; 2000; 2500; 3000; 3500; 4000; 5000; 10000])
     "user" 10 60000 emptyStorage).1 =
    ((λ i, Result.mk true (10 - 1 - i) (0 + 60000) 10) <$> seqZ 0 10)
    ++ [Result.mk false 0 (0 + 60000) 10].
Proof.
  apply (checkLimit_boundary "user" 10 60000 0
           [500; 1000; 1500; 2000; 2500; 3000; 3500; 4000; 5000; 10000] emptyStorage).
  - lia.
  - lia.
  - exact I.
  - reflexivity.
  - repeat constructor; lia.
Defined.

(** The last line of that scenario: at [t = 61000] the window is over and
    the call opens the next one. *)
Example scenario_next_window :
  let s := (checkLimitAt [0; 500; 1000; 1500; 2000; 2500; 3000; 3500; 4000; 5000; 10000]
              "user" 10 60000 emptyStorage).2 in
  (checkLimit 61000 "user" 10 60000 s).1 = Result.mk true 9 121000 10.
Proof. vm_compute. reflexivity. Qed.

(** ** Which window length decides *)

(** C2, as stated, fails.  The stored entry records a window of 100 ms that
    is over at [now = 150], yet a call that passes [windowMs = 1000] keeps
    counting in it; and an entry whose own window of 1000 ms is still
    running is replaced by a call that passes [windowMs = 100]. *)
Lemma checkLimit_expiry_ignores_stored_windowMs :
  (expiredAt 150 (Entry.mk 1 0 100)
   ∧ checkLimit 150 "user" 5 1000 (storageWith "user" (Entry.mk 1 0 100))
     = counting (Entry.mk 1 0 100) "user" 5 1000 (storageWith "user" (Entry.mk 1 0 100))
   ∧ entries (checkLimit 150 "user" 5 1000 (storageWith "user" (Entry.mk 1 0 100))).2
       !! "user" = Some (Entry.mk 2 0 1000))
  ∧ (¬ expiredAt 150 (Entry.mk 1 0 1000)
     ∧ checkLimit 150 "user" 5 100 (storageWith "user" (Entry.mk 1 0 1000))
       = opening 150 "user" 5 100 (storageWith "user" (Entry.mk 1 0 1000))
     ∧ entries (checkLimit 150 "user" 5 100 (storageWith "user" (Entry.mk 1 0 1000))).2
         !! "user" = Some (Entry.mk 1 150 100)).
Proof.
  unfold expiredAt. cbn [Entry.timestamp Entry.windowMs].
  repeat split; try lia; vm_compute; reflexivity.
Qed.

(** C2, amended.  For a stored entry (with the positive count every stored
    entry has) the call opens a new window, that is, succeeds and leaves
    [{count: 1, timestamp: now, windowMs}] in storage, exactly when
    [entry.timestamp + windowMs < now] for the [windowMs] passed on this
    call; the [windowMs] recorded in the entry takes no part. *)
Theorem checkLimit_new_window_iff (now : Z) (identifier : string) (max windowMs : Z)
    (s : DurableObjectStorage) (entry : RateLimitEntry) :
  entries s !! identifier = Some entry →
  0 < Entry.count entry →
  (Result.success (checkLimit now identifier max windowMs s).1 = true
   ∧ entries (checkLimit now identifier max windowMs s).2 !! identifier
     = Some (Entry.mk 1 now windowMs))
  ↔ Entry.timestamp entry + windowMs < now.
Proof.
  intros Hs Hcount. split.
  - intros [Hok Hput].
    destruct (Z.lt_ge_cases (Entry.timestamp entry + windowMs) now) as [|Hactive]; [done|].
    destruct (Z.lt_ge_cases (Entry.count entry) max) as [Hlt|Hge].
    + rewrite (checkLimit_counts _ _ _ _ _ _ Hs) in Hput by lia.
      cbn in Hput. rewrite lookup_insert_eq in Hput.
      injection Hput as Hone _. lia.
    + rewrite (checkLimit_rejects _ _ _ _ _ _ Hs) in Hok by lia. done.
  - intros Hover. rewrite checkLimit_opens.
    + cbn. by rewrite lookup_insert_eq.
    + unfold startsNewWindow. rewrite Hs. lia.
Qed.

Lemma checkLimit_new_window_iff_witness :
  (Result.success (checkLimit 150 "user" 5 1000 (storageWith "user" (Entry.mk 1 0 100))).1 = true
   ∧ entries (checkLimit 150 "user" 5 1000 (storageWith "user" (Entry.mk 1 0 100))).2 !! "user"
     = Some (Entry.mk 1 150 1000))
  ↔ Entry.timestamp (Entry.mk 1 0 100) + 1000 < 150.
Proof.
  apply (checkLimit_new_window_iff 150 "user" 5 1000
           (storageWith "user" (Entry.mk 1 0 100)) (Entry.mk 1 0 100)).
  - reflexivity.
  - simpl. lia.
Defined.

(** C3, as stated, fails.  The entry records a window of 100 ms; a call at
    the limit that passes [windowMs = 200] while the window is active
    (whichever length one takes) reports [reset = 0 + 200], not
    [0 + 100]. *)
Lemma checkLimit_rejected_reset_uses_argument :
  entries (storageWith "user" (Entry.mk 1 0 100)) !! "user" = Some (Entry.mk 1 0 100)
  ∧ ¬ expiredAt 50 (Entry.mk 1 0 100)
  ∧ ¬ startsNewWindow (storageWith "user" (Entry.mk 1 0 100)) "user" 50 200
  ∧ (checkLimit 50 "user" 1 200 (storageWith "user" (Entry.mk 1 0 100))).1
    = Result.mk false 0 200 1
  ∧ Result.reset (checkLimit 50 "user" 1 200 (storageWith "user" (Entry.mk 1 0 100))).1
    ≠ Entry.timestamp (Entry.mk 1 0 100) + Entry.windowMs (Entry.mk 1 0 100).
Proof.
  split; [reflexivity|]. split; [unfold expiredAt; simpl; lia|].
  split; [vm_compute; intros [=]|].
  split; [vm_compute; reflexivity|]. vm_compute. intros [=].
Qed.

(** C3, amended.  A call that finds an entry whose window is active and
    whose count has reached [max] returns [success = false],
    [remaining = 0], [limit = max] and
    [reset = entry.timestamp + windowMs] with the [windowMs] of this call. *)
Theorem checkLimit_rejected_result (now : Z) (identifier : string) (max windowMs : Z)
    (s : DurableObjectStorage) (entry : RateLimitEntry) :
  entries s !! identifier = Some entry →
  ¬ startsNewWindow s identifier now windowMs →
  Entry.count entry >= max →
  (checkLimit now identifier max windowMs s).1
  = Result.mk false 0 (Entry.timestamp entry + windowMs) max.
Proof.
  intros Hs Hactive Hfull. unfold startsNewWindow in Hactive. rewrite Hs in Hactive.
  by rewrite (checkLimit_rejects _ _ _ _ _ _ Hs) by lia.
Qed.

Lemma checkLimit_rejected_result_witness :
  (checkLimit 50 "user" 1 200 (storageWith "user" (Entry.mk 1 0 100))).1
  = Result.mk false 0 (Entry.timestamp (Entry.mk 1 0 100) + 200) 1.
Proof.
  apply (checkLimit_rejected_result 50 "user" 1 200
           (storageWith "user" (Entry.mk 1 0 100)) (Entry.mk 1 0 100)).
  - reflexivity.
  - vm_compute. intros [=].
  - simpl. lia.
Defined.

(** C4, as stated, fails.  At the boundary instant
    [now = timestamp + windowMs] the window still counts, so an entry at
    the limit is rejected; and when the stored length differs from the one
    passed, a call after [timestamp + entry.windowMs] can be rejected
    too. *)
Lemma checkLimit_boundary_instant_not_reset :
  (100 >= Entry.timestamp (Entry.mk 1 0 100) + Entry.windowMs (Entry.mk 1 0 100)
   ∧ (checkLimit 100 "user" 1 100 (storageWith "user" (Entry.mk 1 0 100))).1
     = Result.mk false 0 100 1)
  ∧ (150 >= Entry.timestamp (Entry.mk 5 0 100) + Entry.windowMs (Entry.mk 5 0 100)
     ∧ (checkLimit 150 "user" 5 1000 (storageWith "user" (Entry.mk 5 0 100))).1
       = Result.mk false 0 1000 5).
Proof.
  repeat split; try (simpl; lia); vm_compute; reflexivity.
Qed.

(** C4, amended.  When [now > entry.timestamp + windowMs], strictly and for
    the [windowMs] passed on the call, the call returns [success = true]
    and [remaining = max - 1] (and [reset = now + windowMs]) whatever the
    stored count is. *)
Theorem checkLimit_window_reset (now : Z) (identifier : string) (max windowMs : Z)
    (s : DurableObjectStorage) (entry : RateLimitEntry) :
  entries s !! identifier = Some entry →
  now > Entry.timestamp entry + windowMs →
  (checkLimit now identifier max windowMs s).1
  = Result.mk true (max - 1) (now + windowMs) max.
Proof.
  intros Hs Hover. rewrite checkLimit_opens; [done|].
  unfold startsNewWindow. rewrite Hs. lia.
Qed.

Lemma checkLimit_window_reset_witness :
  (checkLimit 61000 "user" 10 60000 (storageWith "user" (Entry.mk 10 0 60000))).1
  = Result.mk true (10 - 1) (61000 + 60000) 10.
Proof.
  apply (checkLimit_window_reset 61000 "user" 10 60000
           (storageWith "user" (Entry.mk 10 0 60000)) (Entry.mk 10 0 60000)).
  - reflexivity.
  - simpl. lia.
Defined.

(** ** The sweep *)

Lemma alarm_eq now now' s :
  alarm now now' s =
  let keys := expiredKeys now (map_to_list (entries s)) in
  (tt, {| entries := if (0 <? length keys)%nat then foldr delete (entries s) keys
                     else entries s;
          alarmTime := Some (now' + CLEANUP_INTERVAL_MS);
          calls := calls s ++ [CallList]
                   ++ (if (0 <? length keys)%nat then [CallDelete keys] else [])
                   ++ [CallSetAlarm (now' + CLEANUP_INTERVAL_MS)] |}).
Proof.
  unfold alarm, mbind, Task_bind, mret, Task_ret.
  unfold storage_list, storage_delete, storage_setAlarm, recorded. cbn -[foldr].
  destruct (expiredKeys now (map_to_list (entries s))) as [|key keys];
    cbn -[foldr]; by rewrite <- ?app_assoc.
Qed.

Lemma elem_of_expiredKeys now (l : list (string * RateLimitEntry)) key :
  key ∈ expiredKeys now l ↔ ∃ entry, (key, entry) ∈ l ∧ expiredAt now entry.
Proof.
  unfold expiredAt. induction l as [|[k e] l IH]; cbn.
  - split; [by intros ?%elem_of_nil | by intros (? & ?%elem_of_nil & _)].
  - destruct (Z.ltb_spec (Entry.timestamp e + Entry.windowMs e) now) as [Hlt|Hge].
    + rewrite elem_of_cons, IH. split.
      * intros [->|(entry & ? & ?)].
        -- exists e. split; [left|done].
        -- exists entry. split; [by right|done].
      * intros (entry & [[= -> ->]|?]%elem_of_cons & ?); [by left|].
        right. by exists entry.
    + rewrite IH. split.
      * intros (entry & ? & ?). exists entry. split; [by right|done].
      * intros (entry & [[= -> ->]|?]%elem_of_cons & ?); [lia|].
        by exists entry.
Qed.

Lemma lookup_foldr_delete (m : gmap string RateLimitEntry) (keys : list string) key :
  foldr delete m keys !! key = if decide (key ∈ keys) then None else m !! key.
Proof.
  induction keys as [|k keys IH]; cbn.
  - by rewrite decide_False by apply not_elem_of_nil.
  - destruct (decide (k = key)) as [->|Hne].
    + rewrite lookup_delete_eq. rewrite decide_True; [done|left].
    + rewrite lookup_delete_ne, IH by done.
      destruct (decide (key ∈ keys)) as [Hin|Hout].
      * rewrite decide_True; [done|by right].
      * rewrite decide_False; [done|].
        intros [->|?]%elem_of_cons; done.
Qed.

Lemma expiredKeys_stored now (s : DurableObjectStorage) key :
  key ∈ expiredKeys now (map_to_list (entries s))
  ↔ ∃ entry, entries s !! key = Some entry ∧ expiredAt now entry.
Proof. rewrite elem_of_expiredKeys. by setoid_rewrite elem_of_map_to_list. Qed.

Lemma alarm_entries now now' s :
  entries (alarm now now' s).2 = filter (λ kv, ¬ expiredAt now kv.2) (entries s).
Proof.
  rewrite alarm_eq. cbv zeta. cbn [snd entries].
  set (keys := expiredKeys now (map_to_list (entries s))).
  apply map_eq. intros key. rewrite map_lookup_filter.
  assert (Hdel : (if (0 <? length keys)%nat then foldr delete (entries s) keys
                  else entries s) !! key
                 = if decide (key ∈ keys) then None else entries s !! key).
  { destruct keys as [|k keys'] eqn:E; cbn -[foldr].
    - by rewrite decide_False by apply not_elem_of_nil.
    - apply lookup_foldr_delete. }
  rewrite Hdel. destruct (decide (key ∈ keys)) as [Hin|Hout].
  - apply expiredKeys_stored in Hin as (entry & -> & Hexp). cbn.
    by rewrite option_guard_False by (intros Hn; by apply Hn).
  - destruct (entries s !! key) as [entry|] eqn:Hs; cbn; [|done].
    rewrite option_guard_True; [done|].
    intros Hexp. apply Hout, expiredKeys_stored. by exists entry.
Qed.

(** C5.  One sweep at [now]: the keys it collects are exactly the keys of
    the entries with [timestamp + windowMs < now]; afterwards storage holds
    exactly the other entries, each under its key with its value; and the
    calls it makes are [list], then one [delete] of the collected keys
    unless there is none, then [setAlarm]. *)
Theorem alarm_sweep (now now' : Z) (s : DurableObjectStorage) :
  let keys := expiredKeys now (map_to_list (entries s)) in
  (∀ key, key ∈ keys ↔ ∃ entry, entries s !! key = Some entry ∧ expiredAt now entry)
  ∧ (∀ key, entries (alarm now now' s).2 !! key =
       match entries s !! key with
       | Some entry => if decide (expiredAt now entry) then None else Some entry
       | None => None
       end)
  ∧ calls (alarm now now' s).2 =
      calls s ++ [CallList]
      ++ (if decide (keys = []) then [] else [CallDelete keys])
      ++ [CallSetAlarm (now' + CLEANUP_INTERVAL_MS)].
Proof.
  intros keys. split; [apply expiredKeys_stored|]. split.
  - intros key. rewrite alarm_entries, map_lookup_filter.
    destruct (entries s !! key) as [entry|]; cbn; [|done].
    destruct (decide (expiredAt now entry)) as [Hexp|Hlive].
    + by rewrite option_guard_False by (intros Hn; by apply Hn).
    + by rewrite option_guard_True.
  - rewrite alarm_eq. cbv zeta. cbn [snd calls]. fold keys. by destruct keys.
Qed.

(** ** The pending alarm *)

Lemma scheduleCleanup_eq now s :
  scheduleCleanup now s =
  match alarmTime s with
  | None =>
      (tt, {| entries := entries s;
              alarmTime := Some (now + CLEANUP_INTERVAL_MS);
              calls := calls s ++ [CallGetAlarm; CallSetAlarm (now + CLEANUP_INTERVAL_MS)] |})
  | Some _ => (tt, recorded CallGetAlarm s)
  end.
Proof.
  unfold scheduleCleanup, mbind, Task_bind, mret, Task_ret.
  unfold storage_getAlarm, storage_setAlarm, recorded. cbn.
  destruct (alarmTime s); cbn; [done|]. by rewrite <- app_assoc.
Qed.

Lemma checkLimit_alarmTime now identifier max windowMs s :
  alarmTime (checkLimit now identifier max windowMs s).2 = alarmTime s.
Proof.
  rewrite checkLimit_eq. unfold opening, rejecting, counting.
  destruct (entries s !! identifier) as [entry|]; [|done].
  destruct (Entry.timestamp entry <? now - windowMs); [done|].
  by destruct (Entry.count entry >=? max).
Qed.

Lemma invoke_alarmTime i s :
  is_Some (alarmTime s) → is_Some (alarmTime (invoke i s)).
Proof.
  destruct i as [now identifier max windowMs|now now']; cbn.
  - by rewrite checkLimit_alarmTime.
  - intros _. by rewrite alarm_eq.
Qed.

(** C6.  A deadline is always pending.  The constructor leaves an existing
    deadline as it is, without calling [setAlarm], and otherwise sets one
    [CLEANUP_INTERVAL_MS] (twelve hours) after its reading of the clock;
    [alarm] always ends with the call [setAlarm(Date.now() +
    CLEANUP_INTERVAL_MS)], which becomes the deadline, whatever was stored
    or deleted; and at every point of the actor's life after its
    construction a deadline is set. *)
Theorem alarm_always_pending (born now now' : Z) (invocations : list Invocation)
    (s : DurableObjectStorage) :
  CLEANUP_INTERVAL_MS = 43200000
  ∧ alarmTime (construct born s).2
    = Some (default (born + CLEANUP_INTERVAL_MS) (alarmTime s))
  ∧ (is_Some (alarmTime s) → calls (construct born s).2 = calls s ++ [CallGetAlarm])
  ∧ alarmTime (alarm now now' s).2 = Some (now' + CLEANUP_INTERVAL_MS)
  ∧ last (calls (alarm now now' s).2) = Some (CallSetAlarm (now' + CLEANUP_INTERVAL_MS))
  ∧ is_Some (alarmTime (lifetime born invocations s)).
Proof.
  split; [reflexivity|].
  assert (Hborn : alarmTime (construct born s).2
                  = Some (default (born + CLEANUP_INTERVAL_MS) (alarmTime s))).
  { unfold construct. rewrite scheduleCleanup_eq.
    destruct (alarmTime s) as [t|] eqn:Ht; cbn; [by rewrite Ht|done]. }
  split; [done|]. split.
  { intros [t Ht]. unfold construct. by rewrite scheduleCleanup_eq, Ht. }
  split; [by rewrite alarm_eq|]. split.
  { rewrite alarm_eq. cbv zeta. cbn [snd calls].
    by rewrite !app_assoc, last_snoc. }
  unfold lifetime.
  assert (Hset : is_Some (alarmTime (construct born s).2)) by (by rewrite Hborn).
  revert Hset. generalize (construct born s).2.
  induction invocations as [|i invocations IH]; intros s0 Hs0; cbn; [done|].
  apply IH. by apply invoke_alarmTime.
Qed.

(** ** Frame *)

(** C7.  A call touches no key but its identifier, and a call that returns
    [success = false] changes neither the entries (the one of the
    identifier included) nor the alarm: it only reads. *)
Theorem checkLimit_frame (now : Z) (identifier : string) (max windowMs : Z)
    (s : DurableObjectStorage) :
  (∀ key, key ≠ identifier →
     entries (checkLimit now identifier max windowMs s).2 !! key = entries s !! key)
  ∧ (Result.success (checkLimit now identifier max windowMs s).1 = false →
     entries (checkLimit now identifier max windowMs s).2 = entries s
     ∧ alarmTime (checkLimit now identifier max windowMs s).2 = alarmTime s
     ∧ calls (checkLimit now identifier max windowMs s).2 = calls s ++ [CallGet identifier]).
Proof.
  rewrite checkLimit_eq. unfold opening, rejecting, counting.
  destruct (entries s !! identifier) as [entry|].
  - destruct (Entry.timestamp entry <? now - windowMs).
    + split; [|done]. intros key Hne. cbn. by rewrite lookup_insert_ne.
    + destruct (Entry.count entry >=? max).
      * split; [done|]. by intros _.
      * split; [|done]. intros key Hne. cbn. by rewrite lookup_insert_ne.
  - split; [|done]. intros key Hne. cbn. by rewrite lookup_insert_ne.
Qed.

(** ** The empty identifier *)

(** C8, as stated, fails.  With the empty string as identifier the call
    reads storage under the empty key, writes an entry under it and returns
    an ordinary successful result. *)
Lemma checkLimit_empty_identifier_accepted :
  checkLimit 0 EmptyString 10 60000 emptyStorage
  = (Result.mk true 9 60000 10,
     {| entries := {[EmptyString := Entry.mk 1 0 60000]};
        alarmTime := None;
        calls := [CallGet EmptyString; CallPut EmptyString (Entry.mk 1 0 60000)] |}).
Proof. rewrite checkLimit_eq. reflexivity. Qed.

(** C8, amended.  [checkLimit] does not inspect its identifier.  Called
    with the empty string it returns what any identifier with the same
    stored entry (or none) would get, no error; and it starts with the
    storage read of the empty key, followed by at most one write, under that
    key. *)
Theorem checkLimit_empty_identifier (now max windowMs : Z) (s : DurableObjectStorage) :
  (∀ key s', entries s' !! key = entries s !! EmptyString →
     (checkLimit now EmptyString max windowMs s).1 = (checkLimit now key max windowMs s').1)
  ∧ ∃ writes,
      calls (checkLimit now EmptyString max windowMs s).2 = calls s ++ CallGet EmptyString :: writes
      ∧ (writes = [] ∨ ∃ entry, writes = [CallPut EmptyString entry]).
Proof.
  split.
  - intros key s' Hsame. rewrite !checkLimit_eq, Hsame.
    unfold opening, rejecting, counting.
    destruct (entries s !! EmptyString) as [entry|]; [|done].
    destruct (Entry.timestamp entry <? now - windowMs); [done|].
    by destruct (Entry.count entry >=? max).
  - rewrite checkLimit_eq. unfold opening, rejecting, counting, recorded.
    destruct (entries s !! EmptyString) as [entry|].
    + destruct (Entry.timestamp entry <? now - windowMs).
      * eexists. split; [done|]. right. by eexists.
      * destruct (Entry.count entry >=? max).
        -- exists []. split; [done|]. by left.
        -- eexists. split; [done|]. right. by eexists.
    + eexists. split; [done|]. right. by eexists.
Qed.

(** ** Positive counts *)

Lemma checkLimit_countsPositive now identifier max windowMs s :
  countsPositive s → countsPositive (checkLimit now identifier max windowMs s).2.
Proof.
  intros Hpos key entry. rewrite checkLimit_eq. unfold opening, rejecting, counting.
  destruct (entries s !! identifier) as [stored|] eqn:Hs.
  - destruct (Entry.timestamp stored <? now - windowMs).
    + cbn. rewrite lookup_insert. case_decide as Heq.
      * intros [= <-]. cbn. lia.
      * apply Hpos.
    + destruct (Entry.count stored >=? max).
      * apply Hpos.
      * cbn. rewrite lookup_insert. case_decide as Heq.
        -- intros [= <-]. cbn. apply Hpos in Hs. lia.
        -- apply Hpos.
  - cbn. rewrite lookup_insert. case_decide as Heq.
    + intros [= <-]. cbn. lia.
    + apply Hpos.
Qed.

Lemma alarm_countsPositive now now' s :
  countsPositive s → countsPositive (alarm now now' s).2.
Proof.
  intros Hpos key entry. rewrite alarm_entries.
  intros [Hs _]%map_lookup_filter_Some. by apply (Hpos key).
Qed.

Lemma invoke_countsPositive i s : countsPositive s → countsPositive (invoke i s).
Proof.
  destruct i; cbn; [apply checkLimit_countsPositive | apply alarm_countsPositive].
Qed.

(** C9.  [0 < count] for every stored entry is kept by every call of
    [checkLimit] and by every sweep, and so it holds at every point of the
    life of an actor constructed on empty storage, whatever invocations it
    serves, in whatever order and with whatever arguments. *)
Theorem count_always_positive :
  (∀ i s, countsPositive s → countsPositive (invoke i s))
  ∧ ∀ born invocations, countsPositive (lifetime born invocations emptyStorage).
Proof.
  split; [apply invoke_countsPositive|].
  intros born invocations. unfold lifetime.
  assert (Hborn : countsPositive (construct born emptyStorage).2).
  { intros key entry. unfold construct. rewrite scheduleCleanup_eq. cbn.
    by rewrite lookup_empty. }
  revert Hborn. generalize (construct born emptyStorage).2.
  induction invocations as [|i invocations IH]; intros s Hs; cbn; [done|].
  apply IH. by apply invoke_countsPositive.
Qed.

(** ** More on [checkLimit] *)

(** X1.  The accepted increment: for a stored entry whose window is active
    and whose count is below [max], the call keeps the window start, adds
    one to the count, overwrites the stored [windowMs] with the one passed,
    and reports [remaining = max - (count + 1)] and
    [reset = timestamp + windowMs]. *)
Theorem checkLimit_increment (now : Z) (identifier : string) (max windowMs : Z)
    (s : DurableObjectStorage) (entry : RateLimitEntry) :
  entries s !! identifier = Some entry →
  ¬ startsNewWindow s identifier now windowMs →
  Entry.count entry < max →
  (checkLimit now identifier max windowMs s).1
  = Result.mk true (max - (Entry.count entry + 1)) (Entry.timestamp entry + windowMs) max
  ∧ entries (checkLimit now identifier max windowMs s).2
    = <[identifier := Entry.mk (Entry.count entry + 1) (Entry.timestamp entry) windowMs]>
        (entries s).
Proof.
  intros Hs Hactive Hbelow. unfold startsNewWindow in Hactive. rewrite Hs in Hactive.
  by rewrite (checkLimit_counts _ _ _ _ _ _ Hs) by lia.
Qed.

Lemma checkLimit_increment_witness :
  (checkLimit 5000 "user" 10 120000 (storageWith "user" (Entry.mk 2 0 30000))).1
  = Result.mk true (10 - (Entry.count (Entry.mk 2 0 30000) + 1))
      (Entry.timestamp (Entry.mk 2 0 30000) + 120000) 10
  ∧ entries (checkLimit 5000 "user" 10 120000 (storageWith "user" (Entry.mk 2 0 30000))).2
    = <["user" := Entry.mk (Entry.count (Entry.mk 2 0 30000) + 1)
                    (Entry.timestamp (Entry.mk 2 0 30000)) 120000]>
        (entries (storageWith "user" (Entry.mk 2 0 30000))).
Proof.
  apply (checkLimit_increment 5000 "user" 10 120000
           (storageWith "user" (Entry.mk 2 0 30000)) (Entry.mk 2 0 30000)).
  - reflexivity.
  - vm_compute. intros [=].
  - simpl. lia.
Defined.

(** X2.  With a limit of at least one and stored counts that are positive
    (as they always are, see [countsPositive]), [remaining] is never
    negative and never reaches [max]; [limit] is the [max] passed. *)
Theorem checkLimit_remaining_bounds (now : Z) (identifier : string) (max windowMs : Z)
    (s : DurableObjectStorage) :
  1 ≤ max →
  countsPositive s →
  0 ≤ Result.remaining (checkLimit now identifier max windowMs s).1 < max
  ∧ Result.limit (checkLimit now identifier max windowMs s).1 = max.
Proof.
  intros Hmax Hpos. rewrite checkLimit_eq. unfold opening, rejecting, counting.
  destruct (entries s !! identifier) as [entry|] eqn:Hs; [|cbn; lia].
  apply Hpos in Hs.
  destruct (Entry.timestamp entry <? now - windowMs); [cbn; lia|].
  destruct (Z.geb_spec (Entry.count entry) max); cbn; lia.
Qed.

Lemma storageWith_countsPositive key entry :
  0 < Entry.count entry → countsPositive (storageWith key entry).
Proof.
  intros Hpos k e. unfold storageWith. cbn.
  intros [_ <-]%lookup_singleton_Some. exact Hpos.
Qed.

Lemma checkLimit_remaining_bounds_witness :
  0 ≤ Result.remaining (checkLimit 5000 "user" 10 60000
                          (storageWith "user" (Entry.mk 3 0 60000))).1 < 10
  ∧ Result.limit (checkLimit 5000 "user" 10 60000
                    (storageWith "user" (Entry.mk 3 0 60000))).1 = 10.
Proof.
  apply (checkLimit_remaining_bounds 5000 "user" 10 60000
           (storageWith "user" (Entry.mk 3 0 60000))).
  - lia.
  - apply storageWith_countsPositive. simpl. lia.
Defined.

(** X3.  With a window length that is not negative, the [reset] reported
    is never before the call: on every path [now ≤ reset]; and when the
    stored window did not start after [now], [reset ≤ now + windowMs]. *)
Theorem checkLimit_reset_not_past (now : Z) (identifier : string) (max windowMs : Z)
    (s : DurableObjectStorage) :
  0 ≤ windowMs →
  now ≤ Result.reset (checkLimit now identifier max windowMs s).1
  ∧ ((∀ entry, entries s !! identifier = Some entry → Entry.timestamp entry ≤ now) →
     Result.reset (checkLimit now identifier max windowMs s).1 ≤ now + windowMs).
Proof.
  intros Hw. rewrite checkLimit_eq. unfold opening, rejecting, counting.
  destruct (entries s !! identifier) as [entry|]; [|cbn; lia].
  destruct (Z.ltb_spec (Entry.timestamp entry) (now - windowMs)); [cbn; lia|].
  destruct (Entry.count entry >=? max); cbn.
  - split; [lia|]. intros Hpast. specialize (Hpast entry eq_refl). lia.
  - split; [lia|]. intros Hpast. specialize (Hpast entry eq_refl). lia.
Qed.

Lemma checkLimit_reset_not_past_witness :
  5000 ≤ Result.reset (checkLimit 5000 "user" 10 60000
                         (storageWith "user" (Entry.mk 3 0 60000))).1
  ∧ ((∀ entry, entries (storageWith "user" (Entry.mk 3 0 60000)) !! "user" = Some entry →
        Entry.timestamp entry ≤ 5000) →
     Result.reset (checkLimit 5000 "user" 10 60000
                     (storageWith "user" (Entry.mk 3 0 60000))).1 ≤ 5000 + 60000).
Proof.
  apply (checkLimit_reset_not_past 5000 "user" 10 60000
           (storageWith "user" (Entry.mk 3 0 60000))).
  lia.
Defined.

(** X4.  What a successful call reports is what it stored: it makes one
    [get] and then one [put], both on its identifier; the entry put is the
    one stored afterwards; its [windowMs] is the one passed; and
    [remaining = max - count], [reset = timestamp + windowMs] for that
    entry. *)
Theorem checkLimit_success_stored (now : Z) (identifier : string) (max windowMs : Z)
    (s : DurableObjectStorage) :
  Result.success (checkLimit now identifier max windowMs s).1 = true →
  ∃ entry,
    entries (checkLimit now identifier max windowMs s).2 !! identifier = Some entry
    ∧ calls (checkLimit now identifier max windowMs s).2
      = calls s ++ [CallGet identifier; CallPut identifier entry]
    ∧ Entry.windowMs entry = windowMs
    ∧ Result.remaining (checkLimit now identifier max windowMs s).1
      = max - Entry.count entry
    ∧ Result.reset (checkLimit now identifier max windowMs s).1
      = Entry.timestamp entry + Entry.windowMs entry.
Proof.
  rewrite checkLimit_eq. unfold opening, rejecting, counting.
  destruct (entries s !! identifier) as [stored|].
  - destruct (Entry.timestamp stored <? now - windowMs).
    + intros _. eexists. cbn. by rewrite lookup_insert_eq.
    + destruct (Entry.count stored >=? max); [done|].
      intros _. eexists. cbn. by rewrite lookup_insert_eq.
  - intros _. eexists. cbn. by rewrite lookup_insert_eq.
Qed.

Lemma checkLimit_success_stored_witness :
  ∃ entry,
    entries (checkLimit 5000 "user" 10 60000 emptyStorage).2 !! "user" = Some entry
    ∧ calls (checkLimit 5000 "user" 10 60000 emptyStorage).2
      = calls emptyStorage ++ [CallGet "user"; CallPut "user" entry]
    ∧ Entry.windowMs entry = 60000
    ∧ Result.remaining (checkLimit 5000 "user" 10 60000 emptyStorage).1
      = 10 - Entry.count entry
    ∧ Result.reset (checkLimit 5000 "user" 10 60000 emptyStorage).1
      = Entry.timestamp entry + Entry.windowMs entry.
Proof.
  apply (checkLimit_success_stored 5000 "user" 10 60000 emptyStorage).
  reflexivity.
Defined.

(** X5.  Once the limit is reached, every further call in the window is
    rejected, however many there are, and the entries stay as they were:
    for a stored entry with [count >= max], calls at times [now] with
    [entry.timestamp >= now - windowMs] all return [success = false],
    [remaining = 0] and the same [reset]. *)
Theorem checkLimitAt_limit_reached (times : list Z) (identifier : string)
    (max windowMs : Z) (s : DurableObjectStorage) (entry : RateLimitEntry) :
  entries s !! identifier = Some entry →
  Entry.count entry >= max →
  Forall (λ now, Entry.timestamp entry >= now - windowMs) times →
  (checkLimitAt times identifier max windowMs s).1
  = replicate (length times) (Result.mk false 0 (Entry.timestamp entry + windowMs) max)
  ∧ entries (checkLimitAt times identifier max windowMs s).2 = entries s.
Proof.
  intros Hs Hfull Hin. revert s Hs.
  induction Hin as [|now later Hnow Hlater IH]; intros s Hs; [done|].
  rewrite checkLimitAt_cons, (checkLimit_rejects _ _ _ _ _ _ Hs) by lia.
  unfold rejecting. specialize (IH (recorded (CallGet identifier) s) Hs).
  destruct (checkLimitAt later identifier max windowMs (recorded (CallGet identifier) s))
    as [rs s'].
  cbn in *. destruct IH as [-> ->]. done.
Qed.

Lemma checkLimitAt_limit_reached_witness :
  (checkLimitAt [10000; 20000; 60000] "user" 10 60000
     (storageWith "user" (Entry.mk 10 0 60000))).1
  = replicate (length [10000; 20000; 60000])
      (Result.mk false 0 (Entry.timestamp (Entry.mk 10 0 60000) + 60000) 10)
  ∧ entries (checkLimitAt [10000; 20000; 60000] "user" 10 60000
               (storageWith "user" (Entry.mk 10 0 60000))).2
    = entries (storageWith "user" (Entry.mk 10 0 60000)).
Proof.
  apply (checkLimitAt_limit_reached [10000; 20000; 60000] "user" 10 60000
           (storageWith "user" (Entry.mk 10 0 60000)) (Entry.mk 10 0 60000)).
  - reflexivity.
  - simpl. lia.
  - repeat constructor; simpl; lia.
Defined.

(** ** How sweeps and calls compose *)

Lemma alarm_nothing_expired now now' s :
  (∀ key entry, entries s !! key = Some entry → ¬ expiredAt now entry) →
  alarm now now' s =
  (tt, {| entries := entries s;
          alarmTime := Some (now' + CLEANUP_INTERVAL_MS);
          calls := calls s ++ [CallList; CallSetAlarm (now' + CLEANUP_INTERVAL_MS)] |}).
Proof.
  intros Hlive. rewrite alarm_eq. cbv zeta.
  assert (expiredKeys now (map_to_list (entries s)) = []) as ->; [|done].
  apply elem_of_nil_inv. intros key (entry & Hs & Hexp)%expiredKeys_stored.
  by apply (Hlive key entry).
Qed.

Lemma alarm_lookup now now' s key :
  entries (alarm now now' s).2 !! key =
  match entries s !! key with
  | Some entry => if decide (expiredAt now entry) then None else Some entry
  | None => None
  end.
Proof.
  rewrite alarm_entries, map_lookup_filter.
  destruct (entries s !! key) as [entry|]; cbn; [|done].
  destruct (decide (expiredAt now entry)) as [Hexp|Hlive].
  - by rewrite option_guard_False by (intros Hn; by apply Hn).
  - by rewrite option_guard_True.
Qed.

(** The result of a call and the entry it leaves for its identifier depend
    on the storage through the entry of that identifier only. *)
Lemma checkLimit_local now identifier max windowMs s1 s2 :
  entries s1 !! identifier = entries s2 !! identifier →
  (checkLimit now identifier max windowMs s1).1 = (checkLimit now identifier max windowMs s2).1
  ∧ entries (checkLimit now identifier max windowMs s1).2 !! identifier
    = entries (checkLimit now identifier max windowMs s2).2 !! identifier.
Proof.
  intros Hsame. rewrite !checkLimit_eq, Hsame. unfold opening, rejecting, counting.
  destruct (entries s2 !! identifier) as [entry|] eqn:Hs2.
  - destruct (Entry.timestamp entry <? now - windowMs).
    + cbn. by rewrite !lookup_insert_eq.
    + destruct (Entry.count entry >=? max); cbn.
      * by rewrite Hsame, Hs2.
      * by rewrite !lookup_insert_eq.
  - cbn. by rewrite !lookup_insert_eq.
Qed.

(** X6.  A sweep that follows another one, at the same or an earlier
    reading of the clock, finds nothing to delete: the entries stay, no
    [delete] is issued, and the alarm is set again. *)
Theorem alarm_after_alarm (now1 now1' now2 now2' : Z) (s : DurableObjectStorage) :
  now2 ≤ now1 →
  entries (alarm now2 now2' (alarm now1 now1' s).2).2 = entries (alarm now1 now1' s).2
  ∧ calls (alarm now2 now2' (alarm now1 now1' s).2).2
    = calls (alarm now1 now1' s).2 ++ [CallList; CallSetAlarm (now2' + CLEANUP_INTERVAL_MS)]
  ∧ alarmTime (alarm now2 now2' (alarm now1 now1' s).2).2
    = Some (now2' + CLEANUP_INTERVAL_MS).
Proof.
  intros Hle. rewrite (alarm_nothing_expired now2 now2' (alarm now1 now1' s).2); [done|].
  intros key entry. rewrite alarm_lookup.
  destruct (entries s !! key) as [stored|]; [|done].
  destruct (decide (expiredAt now1 stored)) as [|Hlive]; [done|].
  intros [= <-]. unfold expiredAt in *. lia.
Qed.

Lemma alarm_after_alarm_witness :
  entries (alarm 70000 70001 (alarm 70000 70000 (storageWith "user" (Entry.mk 3 0 60000))).2).2
  = entries (alarm 70000 70000 (storageWith "user" (Entry.mk 3 0 60000))).2
  ∧ calls (alarm 70000 70001 (alarm 70000 70000 (storageWith "user" (Entry.mk 3 0 60000))).2).2
    = calls (alarm 70000 70000 (storageWith "user" (Entry.mk 3 0 60000))).2
      ++ [CallList; CallSetAlarm (70001 + CLEANUP_INTERVAL_MS)]
  ∧ alarmTime (alarm 70000 70001
                 (alarm 70000 70000 (storageWith "user" (Entry.mk 3 0 60000))).2).2
    = Some (70001 + CLEANUP_INTERVAL_MS).
Proof.
  apply (alarm_after_alarm 70000 70000 70000 70001 (storageWith "user" (Entry.mk 3 0 60000))).
  lia.
Defined.

(** X7.  A sweep does not change what a later call answers, as long as the
    call does not pass a longer window than the one stored: when the stored
    [windowMs] is at least the one passed and the call comes no earlier
    than the sweep, the call returns the same result and leaves the same
    entry for its identifier as it would without the sweep. *)
Theorem alarm_then_checkLimit (now now' now2 : Z) (identifier : string)
    (max windowMs : Z) (s : DurableObjectStorage) :
  now ≤ now2 →
  (∀ entry, entries s !! identifier = Some entry → windowMs ≤ Entry.windowMs entry) →
  (checkLimit now2 identifier max windowMs (alarm now now' s).2).1
  = (checkLimit now2 identifier max windowMs s).1
  ∧ entries (checkLimit now2 identifier max windowMs (alarm now now' s).2).2 !! identifier
    = entries (checkLimit now2 identifier max windowMs s).2 !! identifier.
Proof.
  intros Hle Hw.
  pose proof (alarm_lookup now now' s identifier) as Hswept.
  destruct (entries s !! identifier) as [entry|] eqn:Hs.
  - destruct (decide (expiredAt now entry)) as [Hexp|Hlive].
    + rewrite (checkLimit_opens now2 identifier max windowMs (alarm now now' s).2),
        (checkLimit_opens now2 identifier max windowMs s).
      * cbn. by rewrite !lookup_insert_eq.
      * unfold startsNewWindow. rewrite Hs. specialize (Hw entry eq_refl).
        unfold expiredAt in Hexp. lia.
      * unfold startsNewWindow. by rewrite Hswept.
    + apply checkLimit_local. by rewrite Hswept, Hs.
  - apply checkLimit_local. by rewrite Hswept, Hs.
Qed.

Lemma alarm_then_checkLimit_witness :
  (checkLimit 70000 "user" 10 60000
     (alarm 65000 65000 (storageWith "user" (Entry.mk 10 0 60000))).2).1
  = (checkLimit 70000 "user" 10 60000 (storageWith "user" (Entry.mk 10 0 60000))).1
  ∧ entries (checkLimit 70000 "user" 10 60000
               (alarm 65000 65000 (storageWith "user" (Entry.mk 10 0 60000))).2).2 !! "user"
    = entries (checkLimit 70000 "user" 10 60000
                 (storageWith "user" (Entry.mk 10 0 60000))).2 !! "user".
Proof.
  apply (alarm_then_checkLimit 65000 65000 70000 "user" 10 60000
           (storageWith "user" (Entry.mk 10 0 60000))).
  - lia.
  - intros entry. unfold storageWith. cbn.
    intros [_ <-]%lookup_singleton_Some. simpl. lia.
Defined.

(** X8.  With a longer window than the stored one the sweep does show: an
    entry at the limit that the sweep judges expired by its stored
    [windowMs], while a call passing a longer [windowMs] still finds its
    window active, is rejected without the sweep and accepted, in a new
    window, after it. *)
Theorem alarm_then_checkLimit_longer_window (now now' now2 : Z) (identifier : string)
    (max windowMs : Z) (s : DurableObjectStorage) (entry : RateLimitEntry) :
  entries s !! identifier = Some entry →
  expiredAt now entry →
  Entry.timestamp entry >= now2 - windowMs →
  Entry.count entry >= max →
  (checkLimit now2 identifier max windowMs s).1
  = Result.mk false 0 (Entry.timestamp entry + windowMs) max
  ∧ (checkLimit now2 identifier max windowMs (alarm now now' s).2).1
    = Result.mk true (max - 1) (now2 + windowMs) max.
Proof.
  intros Hs Hexp Hactive Hfull. split.
  - by rewrite (checkLimit_rejects _ _ _ _ _ _ Hs) by lia.
  - rewrite checkLimit_opens; [done|].
    unfold startsNewWindow. rewrite alarm_lookup, Hs. by rewrite decide_True.
Qed.

Lemma alarm_then_checkLimit_longer_window_witness :
  (checkLimit 150 "user" 5 1000 (storageWith "user" (Entry.mk 5 0 100))).1
  = Result.mk false 0 (Entry.timestamp (Entry.mk 5 0 100) + 1000) 5
  ∧ (checkLimit 150 "user" 5 1000
       (alarm 150 150 (storageWith "user" (Entry.mk 5 0 100))).2).1
    = Result.mk true (5 - 1) (150 + 1000) 5.
Proof.
  apply (alarm_then_checkLimit_longer_window 150 150 150 "user" 5 1000
           (storageWith "user" (Entry.mk 5 0 100)) (Entry.mk 5 0 100)).
  - reflexivity.
  - unfold expiredAt. simpl. lia.
  - simpl. lia.
  - simpl. lia.
Defined.

(** ** The class of [do.ts] and the class of [durable-object.ts] *)

Lemma do_checkLimit_eq now identifier max windowMs (old : Do.DurableObjectStorage) :
  Do.checkLimit now identifier max windowMs old =
  match Do.entries old !! identifier with
  | None =>
      (Result.mk true (max - 1) (now + windowMs) max,
       Do.mkStorage (<[identifier := Do.mkEntry 1 now]> (Do.entries old))
         (Do.calls old ++ [Do.CallGet identifier;
                           Do.CallPut identifier (Do.mkEntry 1 now)]))
  | Some entry =>
      if Do.timestamp entry <? now - windowMs then
        (Result.mk true (max - 1) (now + windowMs) max,
         Do.mkStorage (<[identifier := Do.mkEntry 1 now]> (Do.entries old))
           (Do.calls old ++ [Do.CallGet identifier;
                             Do.CallPut identifier (Do.mkEntry 1 now)]))
      else if Do.count entry >=? max then
        (Result.mk false 0 (Do.timestamp entry + windowMs) max,
         Do.mkStorage (Do.entries old) (Do.calls old ++ [Do.CallGet identifier]))
      else
        (Result.mk true (max - (Do.count entry + 1)) (Do.timestamp entry + windowMs) max,
         Do.mkStorage
           (<[identifier := Do.mkEntry (Do.count entry + 1) (Do.timestamp entry)]>
              (Do.entries old))
           (Do.calls old ++ [Do.CallGet identifier;
              Do.CallPut identifier (Do.mkEntry (Do.count entry + 1) (Do.timestamp entry))]))
  end.
Proof.
  unfold Do.checkLimit, mbind, Do.Task_bind, mret, Do.Task_ret.
  unfold Do.storage_get, Do.storage_put. cbn.
  destruct (Do.entries old !! identifier) as [entry|]; cbn.
  - destruct (Do.timestamp entry <? now - windowMs); cbn.
    + by rewrite <- app_assoc.
    + destruct (Do.count entry >=? max); cbn; [done|].
      by rewrite <- app_assoc.
  - by rewrite <- app_assoc.
Qed.

Lemma checkLimit_matches_do now identifier max windowMs old s :
  sameCounters old s →
  (Do.checkLimit now identifier max windowMs old).1
  = (checkLimit now identifier max windowMs s).1
  ∧ sameCounters (Do.checkLimit now identifier max windowMs old).2
      (checkLimit now identifier max windowMs s).2.
Proof.
  unfold sameCounters. intros Hsame.
  rewrite do_checkLimit_eq, checkLimit_eq, Hsame, lookup_fmap.
  unfold opening, rejecting, counting.
  destruct (entries s !! identifier) as [entry|]; cbn.
  - destruct (Entry.timestamp entry <? now - windowMs); cbn.
    + by rewrite fmap_insert.
    + destruct (Entry.count entry >=? max); cbn; [done|].
      by rewrite fmap_insert.
  - by rewrite fmap_insert.
Qed.

(** X9.  Storing [windowMs] did not change what callers see: on storages
    that hold the same counts and window starts under the same keys, the
    [checkLimit] of [durable-object.ts] and the one of [do.ts] return the
    same results for any sequence of calls, and the storages still agree
    afterwards. *)
Theorem checkLimits_match_do (requests : list Request)
    (old : Do.DurableObjectStorage) (s : DurableObjectStorage) :
  sameCounters old s →
  (Do.checkLimits requests old).1 = (checkLimits requests s).1
  ∧ sameCounters (Do.checkLimits requests old).2 (checkLimits requests s).2.
Proof.
  revert old s. induction requests as [|q later IH]; intros old s Hsame; [done|].
  cbn [Do.checkLimits checkLimits].
  unfold mbind, Do.Task_bind, Task_bind, mret, Do.Task_ret, Task_ret.
  destruct (checkLimit_matches_do (req_now q) (req_identifier q) (req_max q)
              (req_windowMs q) old s Hsame) as [Hr Hnext].
  destruct (Do.checkLimit (req_now q) (req_identifier q) (req_max q) (req_windowMs q) old)
    as [r1 old1].
  destruct (checkLimit (req_now q) (req_identifier q) (req_max q) (req_windowMs q) s)
    as [r2 s2].
  cbn in Hr, Hnext. subst r2.
  specialize (IH old1 s2 Hnext).
  destruct (Do.checkLimits later old1) as [rs1 old'].
  destruct (checkLimits later s2) as [rs2 s'].
  cbn in *. destruct IH as [-> ?]. done.
Qed.

Lemma checkLimits_match_do_witness :
  (Do.checkLimits [mkRequest 0 "a" 1 60000; mkRequest 10 "b" 1 60000;
                   mkRequest 20 "a" 1 60000; mkRequest 70000 "a" 1 30000]
     (Do.mkStorage ∅ [])).1
  = (checkLimits [mkRequest 0 "a" 1 60000; mkRequest 10 "b" 1 60000;
                  mkRequest 20 "a" 1 60000; mkRequest 70000 "a" 1 30000]
       emptyStorage).1
  ∧ sameCounters
      (Do.checkLimits [mkRequest 0 "a" 1 60000; mkRequest 10 "b" 1 60000;
                       mkRequest 20 "a" 1 60000; mkRequest 70000 "a" 1 30000]
         (Do.mkStorage ∅ [])).2
      (checkLimits [mkRequest 0 "a" 1 60000; mkRequest 10 "b" 1 60000;
                    mkRequest 20 "a" 1 60000; mkRequest 70000 "a" 1 30000]
         emptyStorage).2.
Proof.
  apply (checkLimits_match_do
           [mkRequest 0 "a" 1 60000; mkRequest 10 "b" 1 60000;
            mkRequest 20 "a" 1 60000; mkRequest 70000 "a" 1 30000]
           (Do.mkStorage ∅ []) emptyStorage).
  unfold sameCounters. cbn. by rewrite fmap_empty.
Defined.

(** ** The adapter *)

Lemma prefixed_inj (prefix key1 key2 : string) :
  prefix +:+ key1 = prefix +:+ key2 → key1 = key2.
Proof.
  induction prefix as [|c prefix IH]; cbn; [done|].
  intros [= H]. by apply IH.
Qed.

Lemma limit_eq self born now key namespace :
  limit self born now key namespace =
  let name := Limiter.prefix self +:+ key in
  let served :=
    checkLimit now name (Limiter.maxRequests self) (Limiter.window self)
      (getByName born name namespace) in
  (served.1, <[name := served.2]> namespace).
Proof.
  unfold limit. cbv zeta.
  by destruct (checkLimit now (Limiter.prefix self +:+ key) (Limiter.maxRequests self)
                 (Limiter.window self)
                 (getByName born (Limiter.prefix self +:+ key) namespace)).
Qed.

(** X10.  The first [limit] call for a key that is not empty and whose
    actor does not exist yet is accepted, whatever [maxRequests] is.  The
    actor is constructed on the way, at the clock reading [born]: afterwards
    it has its alarm set twelve hours after [born] and stores one entry,
    [{count: 1, timestamp: now, windowMs: window}], under the prefixed key,
    [now] being the reading of [checkLimit]. *)
Theorem limit_first_use (self : Limiter.t) (born now : Z) (key : string)
    (namespace : gmap string DurableObjectStorage) :
  key ≠ EmptyString →
  namespace !! (Limiter.prefix self +:+ key) = None →
  (limit self born now key namespace).1
  = Result.mk true (Limiter.maxRequests self - 1) (now + Limiter.window self)
      (Limiter.maxRequests self)
  ∧ ∃ actor,
      (limit self born now key namespace).2 !! (Limiter.prefix self +:+ key) = Some actor
      ∧ entries actor
        = {[Limiter.prefix self +:+ key := Entry.mk 1 now (Limiter.window self)]}
      ∧ alarmTime actor = Some (born + 43200000).
Proof.
  intros _ Hnew. rewrite limit_eq. cbv zeta. unfold getByName. rewrite Hnew.
  unfold construct. rewrite scheduleCleanup_eq. cbn [alarmTime emptyStorage snd].
  rewrite checkLimit_opens by (unfold startsNewWindow; cbn; by rewrite lookup_empty).
  unfold opening. cbn. split; [done|].
  eexists. rewrite lookup_insert_eq. split; [done|]. cbn.
  split; [by rewrite insert_empty|done].
Qed.

Lemma limit_first_use_witness :
  (limit (newRateLimiter (Options.mk None 10 60000)) 5 7 "key-1" ∅).1
  = Result.mk true (Limiter.maxRequests (newRateLimiter (Options.mk None 10 60000)) - 1)
      (7 + Limiter.window (newRateLimiter (Options.mk None 10 60000)))
      (Limiter.maxRequests (newRateLimiter (Options.mk None 10 60000)))
  ∧ ∃ actor,
      (limit (newRateLimiter (Options.mk None 10 60000)) 5 7 "key-1" ∅).2
        !! (Limiter.prefix (newRateLimiter (Options.mk None 10 60000)) +:+ "key-1")
      = Some actor
      ∧ entries actor
        = {[Limiter.prefix (newRateLimiter (Options.mk None 10 60000)) +:+ "key-1"
            := Entry.mk 1 7 (Limiter.window (newRateLimiter (Options.mk None 10 60000)))]}
      ∧ alarmTime actor = Some (5 + 43200000).
Proof.
  apply (limit_first_use (newRateLimiter (Options.mk None 10 60000)) 5 7 "key-1" ∅).
  - intros [=].
  - reflexivity.
Defined.

(** X11.  Keys do not share actors: a [limit] call for one key leaves the
    actor of every other key of the same limiter as it was, and so does
    not change what a later [limit] call for that other key returns. *)
Theorem limit_other_key (self : Limiter.t) (born now born2 now2 : Z) (key other : string)
    (namespace : gmap string DurableObjectStorage) :
  key ≠ other →
  (limit self born now key namespace).2 !! (Limiter.prefix self +:+ other)
  = namespace !! (Limiter.prefix self +:+ other)
  ∧ (limit self born2 now2 other (limit self born now key namespace).2).1
    = (limit self born2 now2 other namespace).1.
Proof.
  intros Hne.
  assert (Hkept : (limit self born now key namespace).2 !! (Limiter.prefix self +:+ other)
                  = namespace !! (Limiter.prefix self +:+ other)).
  { rewrite limit_eq. cbv zeta. cbn [snd]. apply lookup_insert_ne.
    intros Heq. by apply Hne, (prefixed_inj (Limiter.prefix self)). }
  split; [done|].
  rewrite (limit_eq self born2 now2 other), (limit_eq self born2 now2 other namespace).
  cbv zeta. cbn [fst]. unfold getByName. by rewrite Hkept.
Qed.

Lemma limit_other_key_witness :
  (limit (newRateLimiter (Options.mk None 10 60000)) 0 1 "key-1" ∅).2
    !! (Limiter.prefix (newRateLimiter (Options.mk None 10 60000)) +:+ "key-2")
  = (∅ : gmap string DurableObjectStorage)
      !! (Limiter.prefix (newRateLimiter (Options.mk None 10 60000)) +:+ "key-2")
  ∧ (limit (newRateLimiter (Options.mk None 10 60000)) 7 8 "key-2"
       (limit (newRateLimiter (Options.mk None 10 60000)) 0 1 "key-1" ∅).2).1
    = (limit (newRateLimiter (Options.mk None 10 60000)) 7 8 "key-2" ∅).1.
Proof.
  apply (limit_other_key (newRateLimiter (Options.mk None 10 60000)) 0 1 7 8
           "key-1" "key-2" ∅).
  intros [=].
Defined.

Lemma limit_wellKept self born now key namespace :
  1 ≤ Limiter.maxRequests self →
  wellKept self namespace → wellKept self (limit self born now key namespace).2.
Proof.
  intros Hmax Hkept name actor. rewrite limit_eq. cbv zeta. cbn [snd].
  rewrite lookup_insert. case_decide as Hname; [|apply Hkept].
  intros [= <-]. subst name. split; [by exists key|].
  set (name := Limiter.prefix self +:+ key).
  assert (Hstub : is_Some (alarmTime (getByName born name namespace))
            ∧ ∀ k entry, entries (getByName born name namespace) !! k = Some entry →
                k = name ∧ Entry.windowMs entry = Limiter.window self
                ∧ 1 ≤ Entry.count entry ≤ Limiter.maxRequests self).
  { unfold getByName. destruct (namespace !! name) as [actor|] eqn:Hactor.
    - by destruct (Hkept name actor Hactor) as (_ & ? & ?).
    - unfold construct. rewrite scheduleCleanup_eq. cbn. split; [done|].
      intros k entry. by rewrite lookup_empty. }
  destruct Hstub as [Halarm Hentries].
  split; [by rewrite checkLimit_alarmTime|].
  intros k entry. rewrite checkLimit_eq. unfold opening, rejecting, counting.
  destruct (entries (getByName born name namespace) !! name) as [stored|] eqn:Hstored.
  - destruct (Hentries name stored Hstored) as (_ & Hw & Hcount).
    destruct (Entry.timestamp stored <? now - Limiter.window self).
    + cbn. rewrite lookup_insert. case_decide as Hk; [|apply Hentries].
      intros [= <-]. cbn. split; [done|]. split; [done|lia].
    + destruct (Z.geb_spec (Entry.count stored) (Limiter.maxRequests self)).
      * apply Hentries.
      * cbn. rewrite lookup_insert. case_decide as Hk; [|apply Hentries].
        intros [= <-]. cbn. split; [done|]. split; [done|lia].
  - cbn. rewrite lookup_insert. case_decide as Hk; [|apply Hentries].
    intros [= <-]. cbn. split; [done|]. split; [done|lia].
Qed.

Lemma happen_wellKept self namespace e :
  1 ≤ Limiter.maxRequests self →
  wellKept self namespace → wellKept self (happen self namespace e).
Proof.
  intros Hmax Hkept. destruct e as [born now key|fired now now']; cbn.
  - by apply limit_wellKept.
  - destruct (namespace !! fired) as [swept|] eqn:Hfired; [|done].
    intros name actor. rewrite lookup_insert. case_decide as Hname; [|apply Hkept].
    intros [= <-]. subst name.
    destruct (Hkept fired swept Hfired) as (Hprefixed & _ & Hentries).
    split; [done|]. split; [by rewrite alarm_eq|].
    intros k entry. rewrite alarm_entries.
    intros [Hs _]%map_lookup_filter_Some. by apply Hentries.
Qed.

(** X12.  Whatever [limit] calls and alarm firings a namespace goes through
    from empty, under a limiter with [maxRequests] of at least one: every
    actor is named by a prefixed key, has an alarm pending, and stores
    nothing but the counter of its own name, with the configured window
    and a count from 1 to [maxRequests]. *)
Theorem limiter_wellKept (self : Limiter.t) (events : list Event) :
  1 ≤ Limiter.maxRequests self →
  wellKept self (foldl (happen self) ∅ events).
Proof.
  intros Hmax.
  assert (Hempty : wellKept self ∅) by (intros name actor; by rewrite lookup_empty).
  revert Hempty. generalize (∅ : gmap string DurableObjectStorage).
  induction events as [|e events IH]; intros namespace Hkept; cbn; [done|].
  apply IH. by apply happen_wellKept.
Qed.

Lemma limiter_wellKept_witness :
  wellKept (newRateLimiter (Options.mk None 10 60000))
    (foldl (happen (newRateLimiter (Options.mk None 10 60000))) ∅
       [EventLimit 0 1 "key-1"; EventLimit 5 5 "key-1";
        EventAlarm "orpc:ratelimit:key-1" 70000 70000; EventLimit 70001 70003 "key-2"]).
Proof.
  apply (limiter_wellKept (newRateLimiter (Options.mk None 10 60000))
           [EventLimit 0 1 "key-1"; EventLimit 5 5 "key-1";
            EventAlarm "orpc:ratelimit:key-1" 70000 70000; EventLimit 70001 70003 "key-2"]).
  simpl. lia.
Defined.
